(** * Solution::processData and Solution::validateInput

    A shallow embedding of
    [challenges/challenge_2026_01_19_1768898874771.cpp] and the proofs of
    its deduplicate-and-sort contract.

    An [int] is modelled as a [Z].  The program never does arithmetic on
    the elements: it only compares them with [<] and [==], so no
    wrap-around occurs and every statement proved for all [list Z] holds
    in particular for the sequences of 32-bit values ([all_int] below). *)

From Stdlib Require Import ZArith Lia.
From stdpp Require Import base list sorting gmap.

Local Open Scope Z_scope.

(** ** The element type *)

Definition is_int (z : Z) : Prop := - 2 ^ 31 <= z < 2 ^ 31.

Definition all_int (v : list Z) : Prop := Forall is_int v.

(** ** [std::set<int>]

    An ordered set of integers, kept as the strictly ascending list of
    its elements: that list is what an in-order walk from [begin()] to
    [end()] visits. *)

Module IntSet.

Definition t : Type := list Z.

Definition empty : t := [].

(** [s.find(x) != s.end()] *)
Fixpoint contains (x : Z) (s : t) : bool :=
  match s with
  | [] => false
  | y :: s' => (x =? y) || contains x s'
  end.

(** [s.insert(x)]: the element is placed at its rank, and a value that
    is already present is not inserted a second time. *)
Fixpoint insert (x : Z) (s : t) : t :=
  match s with
  | [] => [x]
  | y :: s' =>
      if x <? y then x :: y :: s'
      else if x =? y then y :: s'
      else y :: insert x s'
  end.

(** The walk [for (int x : s)]. *)
Definition elements (s : t) : list Z := s.

(** The representation invariant. *)
Definition wf (s : t) : Prop := StronglySorted Z.lt s.

End IntSet.

(** ** [std::sort]

    The standard leaves the algorithm open and only fixes the result: a
    rearrangement of the range that is ascending for [<].  On integers
    that result is unique ([std_sort_unique] below), so any sorting
    function is a faithful model; merge sort is used here. *)

Definition std_sort (v : list Z) : list Z := merge_sort Z.le v.

(** ** [Solution::processData], the value computed *)

(** The state of the loop: the locals [seen] and [result]. *)
Record locals : Type := Locals {
  seen : IntSet.t;
  result : list Z;
}.

Definition locals_init : locals := {| seen := IntSet.empty; result := [] |}.

(** One turn of [for (int item : data)]. *)
Definition visit (st : locals) (item : Z) : locals :=
  if negb (IntSet.contains item (seen st)) then
    {| seen := IntSet.insert item (seen st);
       result := result st ++ [item] |}
  else st.

Definition loop (data : list Z) (st : locals) : locals := foldl visit st data.

Definition processData (data : list Z) : list Z :=
  std_sort (result (loop data locals_init)).

(** ** [Solution::validateInput], the value computed *)

(** [v.empty()] *)
Definition vector_empty (v : list Z) : bool := (length v =? 0)%nat.

Definition validateInput (data : list Z) : bool := negb (vector_empty data).

(** ** The alternative of the specification *)

(** Put every element into an ordered set, then read the set back in
    order.  This definition follows the words of the specification, not
    the source; it is compared with [processData] below. *)
Definition deduplicate_and_sort_ordered_set (data : list Z) : list Z :=
  IntSet.elements (foldl (fun s item => IntSet.insert item s) IntSet.empty data).

(** ** The calls, with the objects they touch

    Both member functions take the vector by reference.  To speak about
    what a call does to the caller's vector, and about the identity of
    the vector it hands back, vector objects live in a heap, addressed
    by location.  A computation may fail: reading a location that holds
    no vector or an element outside the bounds is an error. *)

Abbreviation heap := (gmap positive (list Z)).

Definition M (A : Type) : Type := heap → option (A * heap).

#[global] Instance M_ret : MRet M := λ A a σ, Some (a, σ).

#[global] Instance M_bind : MBind M := λ A B k m σ,
  match m σ with
  | Some (a, σ') => k a σ'
  | None => None
  end.

(** [std::vector<int> v;] *)
Definition vec_new : M positive := λ σ,
  let l := fresh (dom σ) in Some (l, <[l := []]> σ).

(** [v.size()] *)
Definition vec_size (l : positive) : M nat := λ σ,
  v ← σ !! l; Some (length v, σ).

(** [v.empty()] *)
Definition vec_empty (l : positive) : M bool := λ σ,
  v ← σ !! l; Some (vector_empty v, σ).

(** [*(v.begin() + i)] *)
Definition vec_at (l : positive) (i : nat) : M Z := λ σ,
  v ← σ !! l; x ← v !! i; Some (x, σ).

(** [v.push_back(x)] *)
Definition vec_push_back (l : positive) (x : Z) : M unit := λ σ,
  v ← σ !! l; Some ((), <[l := v ++ [x]]> σ).

(** [std::sort(v.begin(), v.end())] *)
Definition vec_sort (l : positive) : M unit := λ σ,
  v ← σ !! l; Some ((), <[l := std_sort v]> σ).

(** The body of the loop; [res] is the location of [result], and the
    set [seen], which never leaves the function, is passed along. *)
Definition loop_body (res : positive) (item : Z) (seen : IntSet.t) : M IntSet.t :=
  if negb (IntSet.contains item seen) then
    _ ← vec_push_back res item; mret (IntSet.insert item seen)
  else mret seen.

(** [for (int item : data)]: the iterator stands at index [i] and [n]
    elements remain before [data.end()], which is evaluated once, when
    the loop starts. *)
Fixpoint range_for (data res : positive) (i n : nat) (seen : IntSet.t) : M IntSet.t :=
  match n with
  | O => mret seen
  | S n' =>
      item ← vec_at data i;
      seen' ← loop_body res item seen;
      range_for data res (S i) n' seen'
  end.

Definition processData_call (data : positive) : M positive :=
  res ← vec_new;
  n ← vec_size data;
  _ ← range_for data res 0 n IntSet.empty;
  _ ← vec_sort res;
  mret res.

Definition validateInput_call (data : positive) : M bool :=
  e ← vec_empty data; mret (negb e).

(** ** Two heaps to run the calls on *)

(** A heap with one vector, [3; 1; 2; 3; 1], at location 1. *)
Definition heap_one : heap := {[ 1%positive := [3; 1; 2; 3; 1] ]}.

(** A heap with an empty vector at location 1 and another vector at
    location 2. *)
Definition heap_two : heap := <[ 1%positive := [] ]> {[ 2%positive := [7; 7] ]}.

(** ** The invariant of the loop *)

(** What holds of [seen] and [result] once the elements of [done] have
    been visited. *)
Record loop_inv (done : list Z) (st : locals) : Prop := LoopInv {
  inv_seen_wf : IntSet.wf (seen st);
  inv_seen_result : ∀ x, x ∈ seen st ↔ x ∈ result st;
  inv_result_done : ∀ x, x ∈ result st ↔ x ∈ done;
  inv_result_NoDup : NoDup (result st);
  inv_result_length : (length (result st) ≤ length done)%nat;
  inv_result_full : NoDup done → length (result st) = length done;
}.

(** ** Facts about the ordered set *)

Section IntSet_facts.
Implicit Types (x y z : Z) (s : IntSet.t).

Lemma IntSet_contains_elem_of x s : IntSet.contains x s = true ↔ x ∈ s.
Proof.
  induction s as [|y s IH]; simpl.
  - split; [discriminate | by intros ?%elem_of_nil].
  - rewrite orb_true_iff, Z.eqb_eq, IH, elem_of_cons. tauto.
Qed.

Lemma IntSet_contains_false x s : IntSet.contains x s = false ↔ x ∉ s.
Proof.
  rewrite <- IntSet_contains_elem_of. destruct (IntSet.contains x s); naive_solver.
Qed.

Lemma IntSet_elem_of_insert z x s : z ∈ IntSet.insert x s ↔ z = x ∨ z ∈ s.
Proof.
  induction s as [|y s IH]; simpl.
  - rewrite list_elem_of_singleton, elem_of_nil. tauto.
  - destruct (Z.ltb_spec x y); [by rewrite elem_of_cons|].
    destruct (Z.eqb_spec x y) as [->|]; rewrite !elem_of_cons; [tauto|].
    rewrite IH. tauto.
Qed.

Lemma IntSet_insert_wf x s : IntSet.wf s → IntSet.wf (IntSet.insert x s).
Proof.
  unfold IntSet.wf. induction s as [|y s IH]; simpl; intros Hs.
  - repeat constructor.
  - apply StronglySorted_cons in Hs as [Hy Hs].
    destruct (Z.ltb_spec x y) as [Hlt|Hge].
    + apply StronglySorted_cons; split; [|by apply StronglySorted_cons].
      constructor; [done|]. eapply Forall_impl; [exact Hy|]. intros; simpl in *; lia.
    + destruct (Z.eqb_spec x y) as [->|Hne]; [by apply StronglySorted_cons|].
      apply StronglySorted_cons; split; [|auto].
      apply Forall_forall. intros z [->|Hz]%IntSet_elem_of_insert; [lia|].
      by eapply Forall_forall in Hy.
Qed.

Lemma IntSet_empty_wf : IntSet.wf IntSet.empty.
Proof. constructor. Qed.
End IntSet_facts.

(** ** Facts about sorted sequences and [std::sort] *)

Lemma strictly_ascending_NoDup (v : list Z) : StronglySorted Z.lt v → NoDup v.
Proof.
  induction 1 as [|x v _ IH Hx]; constructor; [|done].
  intros Hin. eapply Forall_forall in Hx; [|exact Hin]. lia.
Qed.

Lemma ascending_NoDup_strict (v : list Z) :
  StronglySorted Z.le v → NoDup v → StronglySorted Z.lt v.
Proof.
  induction 1 as [|x v _ IH Hx]; intros Hnd; [constructor|].
  apply NoDup_cons in Hnd as [Hnotin Hnd]. constructor; [auto|].
  apply Forall_forall. intros y Hy.
  assert (x ≠ y) by (by intros ->).
  eapply Forall_forall in Hx; [|exact Hy]. lia.
Qed.

Lemma strictly_ascending_unique (v w : list Z) :
  StronglySorted Z.lt v → StronglySorted Z.lt w →
  (∀ x, x ∈ v ↔ x ∈ w) → v = w.
Proof.
  intros Hv Hw Hvw.
  apply (StronglySorted_unique_strong Z.lt); [intros; lia|done..|].
  apply NoDup_Permutation; auto using strictly_ascending_NoDup.
Qed.

Lemma std_sort_Permutation (v : list Z) : std_sort v ≡ₚ v.
Proof. apply merge_sort_Permutation. Qed.

Lemma std_sort_Sorted (v : list Z) : StronglySorted Z.le (std_sort v).
Proof. apply Sorted_StronglySorted; [apply _|]. apply Sorted_merge_sort, _. Qed.

(** Whatever algorithm [std::sort] runs, its result is the one computed
    by [std_sort]. *)
Lemma std_sort_unique (v w : list Z) :
  w ≡ₚ v → Sorted Z.le w → w = std_sort v.
Proof.
  intros Hp Hs. apply (Sorted_unique Z.le); [done| |].
  - apply Sorted_merge_sort, _.
  - by rewrite Hp, std_sort_Permutation.
Qed.

Lemma elem_of_std_sort x (v : list Z) : x ∈ std_sort v ↔ x ∈ v.
Proof. by rewrite std_sort_Permutation. Qed.

Lemma length_std_sort (v : list Z) : length (std_sort v) = length v.
Proof. by rewrite std_sort_Permutation. Qed.

Lemma std_sort_strict (v : list Z) : NoDup v → StronglySorted Z.lt (std_sort v).
Proof.
  intros Hnd. apply ascending_NoDup_strict; [apply std_sort_Sorted|].
  by rewrite std_sort_Permutation.
Qed.

Lemma std_sort_strictly_ascending (v : list Z) :
  StronglySorted Z.lt v → std_sort v = v.
Proof.
  intros Hv. symmetry. apply std_sort_unique; [done|].
  apply StronglySorted_Sorted.
  eapply StronglySorted_fmap with (f := id) (R1 := Z.lt) in Hv;
    [by rewrite list_fmap_id in Hv|]. intros; simpl; lia.
Qed.

(** ** The loop invariant *)

Lemma loop_inv_init : loop_inv [] locals_init.
Proof.
  split; simpl; try done; [apply IntSet_empty_wf|apply NoDup_nil_2].
Qed.

Lemma loop_inv_visit done st item :
  loop_inv done st → loop_inv (done ++ [item]) (visit st item).
Proof.
  intros [Hwf Hsr Hrd Hnd Hlen Hfull]. unfold visit.
  destruct (IntSet.contains item (seen st)) eqn:Hc; simpl.
  - apply IntSet_contains_elem_of, Hsr in Hc.
    split; try done.
    + intros x. rewrite elem_of_app, list_elem_of_singleton, Hrd.
      split; [tauto|]. intros [?| ->]; [done|]. by apply Hrd.
    + rewrite length_app; simpl; lia.
    + intros [_ [Hnot _]]%NoDup_app. apply Hrd in Hc.
      exfalso. apply (Hnot item Hc), list_elem_of_singleton. done.
  - apply IntSet_contains_false in Hc.
    split; simpl.
    + by apply IntSet_insert_wf.
    + intros x. rewrite IntSet_elem_of_insert, elem_of_app, list_elem_of_singleton, Hsr.
      tauto.
    + intros x. rewrite !elem_of_app, Hrd. tauto.
    + apply NoDup_app. split; [done|]. split; [|apply NoDup_singleton].
      intros x Hx ->%list_elem_of_singleton. by apply Hc, Hsr.
    + rewrite !length_app; simpl; lia.
    + intros [Hd _]%NoDup_app. rewrite !length_app, Hfull; done.
Qed.

Lemma loop_inv_loop data done st :
  loop_inv done st → loop_inv (done ++ data) (loop data st).
Proof.
  revert done st. induction data as [|item data IH]; intros done st Hinv; simpl.
  - by rewrite app_nil_r.
  - rewrite (cons_middle item), app_assoc. by apply IH, loop_inv_visit.
Qed.

Lemma loop_inv_processData data : loop_inv data (loop data locals_init).
Proof. apply (loop_inv_loop data []), loop_inv_init. Qed.

(** The set a walk over [data] builds when every element is inserted. *)
Lemma ordered_set_fold data s :
  IntSet.wf s →
  IntSet.wf (foldl (λ s item, IntSet.insert item s) s data) ∧
  ∀ x, x ∈ foldl (λ s item, IntSet.insert item s) s data ↔ x ∈ s ∨ x ∈ data.
Proof.
  revert s. induction data as [|item data IH]; intros s Hs; simpl.
  - split; [done|]. intros x. rewrite elem_of_nil. tauto.
  - destruct (IH (IntSet.insert item s)) as [Hwf Hin]; [by apply IntSet_insert_wf|].
    split; [done|]. intros x.
    rewrite Hin, IntSet_elem_of_insert, elem_of_cons. tauto.
Qed.

(** ** Properties of the value computed by [processData] *)

Lemma processData_StronglySorted data : StronglySorted Z.lt (processData data).
Proof. apply std_sort_strict, (inv_result_NoDup data), loop_inv_processData. Qed.

Lemma elem_of_processData data x : x ∈ processData data ↔ x ∈ data.
Proof.
  unfold processData. rewrite elem_of_std_sort.
  apply inv_result_done, loop_inv_processData.
Qed.

Lemma length_processData data :
  length (processData data) = length (result (loop data locals_init)).
Proof. apply length_std_sort. Qed.

(** ** The calls compute those values

    Running the code on the heap gives what the functions on lists
    compute, and changes nothing but the vector it creates. *)

Section calls.
Implicit Types (σ : heap) (data res : positive) (v r : list Z).

Lemma M_bind_Some {A B} (m : M A) (k : A → M B) σ a σ' :
  m σ = Some (a, σ') → (m ≫= k) σ = k a σ'.
Proof. unfold mbind, M_bind. by intros ->. Qed.

Lemma vec_at_Some data v i x σ :
  σ !! data = Some v → v !! i = Some x → vec_at data i σ = Some (x, σ).
Proof. unfold vec_at. intros -> Hx; simpl. by rewrite Hx. Qed.

Lemma vec_push_back_Some res r x σ :
  σ !! res = Some r → vec_push_back res x σ = Some ((), <[res := r ++ [x]]> σ).
Proof. unfold vec_push_back. by intros ->. Qed.

Lemma loop_body_spec res r item s σ :
  σ !! res = Some r →
  loop_body res item s σ =
    let st := visit (Locals s r) item in
    Some (seen st, <[res := result st]> σ).
Proof.
  intros Hres. unfold loop_body, visit; simpl.
  destruct (IntSet.contains item s); simpl.
  - unfold mret, M_ret. by rewrite insert_id.
  - by rewrite (M_bind_Some _ _ _ _ _ (vec_push_back_Some _ _ _ _ Hres)).
Qed.

Lemma range_for_spec data res v n : ∀ i s r σ,
  data ≠ res → σ !! data = Some v → σ !! res = Some r →
  (i + n)%nat = length v →
  range_for data res i n s σ =
    let st := loop (drop i v) (Locals s r) in
    Some (seen st, <[res := result st]> σ).
Proof.
  induction n as [|n IH]; intros i s r σ Hne Hdata Hres Hlen; simpl.
  - rewrite drop_ge by lia. simpl. unfold mret, M_ret. by rewrite insert_id.
  - destruct (lookup_lt_is_Some_2 v i) as [item Hitem]; [lia|].
    rewrite (M_bind_Some _ _ _ _ _ (vec_at_Some _ _ _ _ _ Hdata Hitem)).
    rewrite (M_bind_Some _ _ _ _ _ (loop_body_spec _ _ item s _ Hres)).
    rewrite (drop_S _ _ _ Hitem); simpl.
    destruct (visit (Locals s r) item) as [s' r'] eqn:Hv; simpl.
    rewrite (IH (S i) s' r'); [|done| | |lia].
    + simpl. by rewrite insert_insert_eq.
    + by rewrite lookup_insert_ne.
    + by rewrite lookup_insert_eq.
Qed.

Lemma fresh_loc_None σ : σ !! fresh (dom σ) = None.
Proof. apply not_elem_of_dom, is_fresh. Qed.

Lemma processData_call_spec data v σ :
  σ !! data = Some v →
  processData_call data σ =
    Some (fresh (dom σ), <[fresh (dom σ) := processData v]> σ).
Proof.
  intros Hdata. pose proof (fresh_loc_None σ) as Hfresh.
  set (res := fresh (dom σ)) in *.
  assert (Hne : data ≠ res) by (intros ->; congruence).
  unfold processData_call.
  rewrite (M_bind_Some vec_new _ σ res (<[res := []]> σ)) by done.
  rewrite (M_bind_Some (vec_size data) _ _ (length v) (<[res := []]> σ)).
  2:{ unfold vec_size. by rewrite lookup_insert_ne, Hdata. }
  erewrite M_bind_Some.
  2:{ apply (range_for_spec data res v (length v) 0%nat _ []); [done| | |done].
      - by rewrite lookup_insert_ne.
      - by rewrite lookup_insert_eq. }
  simpl. rewrite insert_insert_eq.
  erewrite M_bind_Some.
  2:{ unfold vec_sort. by rewrite lookup_insert_eq. }
  unfold mret, M_ret. by rewrite insert_insert_eq.
Qed.

Lemma validateInput_call_spec data v σ :
  σ !! data = Some v →
  validateInput_call data σ = Some (validateInput v, σ).
Proof.
  intros Hdata. unfold validateInput_call.
  erewrite M_bind_Some; [done|]. unfold vec_empty. by rewrite Hdata.
Qed.
End calls.

(** The result is again a sequence of [int]s. *)
Lemma processData_all_int data : all_int data → all_int (processData data).
Proof.
  unfold all_int. rewrite !Forall_forall. intros Hd x Hx.
  by apply Hd, elem_of_processData.
Qed.

Lemma validateInput_false data : validateInput data = false ↔ data = [].
Proof. by destruct data. Qed.

Lemma processData_nil_inv data : processData data = [] → data = [].
Proof.
  intros Hnil. apply elem_of_nil_inv. intros x Hx%elem_of_processData.
  rewrite Hnil in Hx. by apply elem_of_nil in Hx.
Qed.

(** ** The contract *)

(** C1: for every input sequence, the output of [processData] is strictly
    ascending, each element being less than the one after it (and less
    than all later ones), so no value occurs twice in it. *)
Theorem processData_strictly_ascending (data : list Z) :
  Sorted Z.lt (processData data) ∧
  StronglySorted Z.lt (processData data) ∧
  NoDup (processData data).
Proof.
  pose proof (processData_StronglySorted data) as Hs.
  split; [by apply StronglySorted_Sorted|].
  split; [done|by apply strictly_ascending_NoDup].
Qed.

(** C2: for every input sequence, the values of the output of
    [processData] are exactly the values of the input: every input value
    is in the output, every output value is in the input, and the two
    sets of values are equal. *)
Theorem processData_same_values (data : list Z) :
  (∀ x, x ∈ processData data ↔ x ∈ data) ∧
  list_to_set (processData data) =@{gset Z} list_to_set data.
Proof.
  split; [intros x; apply elem_of_processData|].
  apply set_eq. intros x. by rewrite !elem_of_list_to_set, elem_of_processData.
Qed.

(** C3: [processData] is idempotent: applied to its own output it
    returns that output. *)
Theorem processData_idempotent (data : list Z) :
  processData (processData data) = processData data.
Proof.
  apply strictly_ascending_unique; try apply processData_StronglySorted.
  intros x. apply elem_of_processData.
Qed.

(** C4: [validateInput] returns true exactly when the sequence has at
    least one element and false otherwise; it is false on the empty
    sequence and true on every one-element sequence. *)
Theorem validateInput_non_empty (data : list Z) :
  (validateInput data = true ↔ (1 ≤ length data)%nat) ∧
  (validateInput data = false ↔ length data = 0%nat) ∧
  validateInput [] = false ∧
  (∀ x : Z, validateInput [x] = true).
Proof.
  repeat split; try done; destruct data; simpl; try done; lia.
Qed.

(** C5: on the examples of the specification [processData] returns
    [1; 2; 3] for [3; 1; 2; 3; 1], the empty sequence for the empty
    sequence, and [5] for [5; 5; 5; 5]. *)
Theorem processData_examples :
  processData [3; 1; 2; 3; 1] = [1; 2; 3] ∧
  processData [] = [] ∧
  processData [5; 5; 5; 5] = [5].
Proof. repeat split; vm_compute; reflexivity. Qed.

(** C7: the implemented algorithm (seen-set, first occurrences appended
    in input order, then sorted) returns, for every input sequence, the
    same sequence as inserting every element into an ordered set and
    reading the set back in ascending order. *)
Theorem processData_ordered_set (data : list Z) :
  processData data = deduplicate_and_sort_ordered_set data.
Proof.
  destruct (ordered_set_fold data IntSet.empty IntSet_empty_wf) as [Hwf Hin].
  apply strictly_ascending_unique; [apply processData_StronglySorted|exact Hwf|].
  intros x. unfold deduplicate_and_sort_ordered_set, IntSet.elements.
  rewrite Hin, elem_of_processData. unfold IntSet.empty. rewrite elem_of_nil. tauto.
Qed.

(** C9: the two operations agree on emptiness: [validateInput] is false
    on a sequence if and only if [processData] returns the empty
    sequence on it. *)
Theorem validateInput_false_iff_processData_nil (data : list Z) :
  validateInput data = false ↔ processData data = [].
Proof.
  rewrite validateInput_false. split; [by intros ->|apply processData_nil_inv].
Qed.

(** C10: the output of [processData] is never longer than the input,
    and it has the length of the input exactly when the input has no
    duplicate values. *)
Theorem processData_length (data : list Z) :
  (length (processData data) ≤ length data)%nat ∧
  (length (processData data) = length data ↔ NoDup data).
Proof.
  destruct (loop_inv_processData data) as [_ _ Hrd Hnd Hlen Hfull].
  rewrite length_processData. split; [done|]. split; [|done].
  intros Heq.
  assert (result (loop data locals_init) ≡ₚ data) as <-; [|done].
  apply submseteq_length_Permutation; [|lia].
  apply NoDup_submseteq; [done|]. intros x. apply Hrd.
Qed.

(** ** The calls on the heap *)

(** C6: neither call has a side effect.  A call of [processData] on a
    vector of the heap returns a vector at a location that did not hold
    one before, hence distinct from the argument, and leaves the
    argument and every other vector as they were; a call of
    [validateInput] leaves the whole heap as it was. *)
Theorem calls_no_side_effect (σ : heap) (data : positive) (v : list Z) :
  σ !! data = Some v →
  (∃ res σ',
      processData_call data σ = Some (res, σ') ∧
      σ' !! data = Some v ∧
      res ≠ data ∧
      σ !! res = None ∧
      σ' !! res = Some (processData v) ∧
      (∀ l, l ≠ res → σ' !! l = σ !! l)) ∧
  validateInput_call data σ = Some (validateInput v, σ).
Proof.
  intros Hdata. split; [|by apply validateInput_call_spec].
  pose proof (fresh_loc_None σ) as Hfresh.
  exists (fresh (dom σ)), (<[fresh (dom σ) := processData v]> σ).
  assert (fresh (dom σ) ≠ data) as Hne by (intros Heq; congruence).
  split; [by apply processData_call_spec|].
  split; [by rewrite lookup_insert_ne|].
  split; [done|]. split; [done|].
  split; [by rewrite lookup_insert_eq|].
  intros l Hl. by rewrite lookup_insert_ne.
Qed.

Lemma calls_no_side_effect_witness :
  heap_one !! 1%positive = Some [3; 1; 2; 3; 1] ∧
  ((∃ res σ',
      processData_call 1%positive heap_one = Some (res, σ') ∧
      σ' !! 1%positive = Some [3; 1; 2; 3; 1] ∧
      res ≠ 1%positive ∧
      heap_one !! res = None ∧
      σ' !! res = Some (processData [3; 1; 2; 3; 1]) ∧
      (∀ l, l ≠ res → σ' !! l = heap_one !! l)) ∧
   validateInput_call 1%positive heap_one =
     Some (validateInput [3; 1; 2; 3; 1], heap_one)).
Proof.
  split; [reflexivity|].
  apply (calls_no_side_effect heap_one 1%positive [3; 1; 2; 3; 1]).
  reflexivity.
Defined.

(** C8: [processData] is total.  On every vector of the heap, the empty
    one included, the call terminates and returns a result: no read
    falls outside the vector, no location it uses is missing, and the
    vector returned holds the value [processData] computes. *)
Theorem processData_total (σ : heap) (data : positive) (v : list Z) :
  σ !! data = Some v →
  ∃ res σ',
    processData_call data σ = Some (res, σ') ∧
    σ' !! res = Some (processData v).
Proof.
  intros Hdata. eexists _, _. split; [by apply processData_call_spec|].
  by rewrite lookup_insert_eq.
Qed.

Lemma processData_total_witness :
  (heap_one !! 1%positive = Some [3; 1; 2; 3; 1] ∧
   ∃ res σ',
     processData_call 1%positive heap_one = Some (res, σ') ∧
     σ' !! res = Some [1; 2; 3]) ∧
  (heap_two !! 2%positive = Some [7; 7] ∧
   ∃ res σ',
     processData_call 2%positive heap_two = Some (res, σ') ∧
     σ' !! res = Some [7]) ∧
  (heap_two !! 1%positive = Some [] ∧
   ∃ res σ',
     processData_call 1%positive heap_two = Some (res, σ') ∧
     σ' !! res = Some []).
Proof.
  split; [|split]; (split; [reflexivity|]).
  - apply (processData_total heap_one 1%positive [3; 1; 2; 3; 1]). reflexivity.
  - apply (processData_total heap_two 2%positive [7; 7]). reflexivity.
  - apply (processData_total heap_two 1%positive []). reflexivity.
Defined.

(** ** Further properties of [processData] *)

(** Two inputs with the same values give the same output. *)
Lemma processData_ext (data data' : list Z) :
  (∀ x, x ∈ data ↔ x ∈ data') → processData data = processData data'.
Proof.
  intros Hv. apply strictly_ascending_unique; try apply processData_StronglySorted.
  intros x. by rewrite !elem_of_processData.
Qed.

Lemma processData_strictly_ascending_id (data : list Z) :
  StronglySorted Z.lt data → processData data = data.
Proof.
  intros Hs. apply strictly_ascending_unique; [apply processData_StronglySorted|done|].
  intros x. apply elem_of_processData.
Qed.

Lemma list_to_set_processData (data : list Z) :
  list_to_set (processData data) =@{gset Z} list_to_set data.
Proof.
  apply set_eq. intros x. by rewrite !elem_of_list_to_set, elem_of_processData.
Qed.

(** X1: the output of [processData] depends on the set of values of the
    input and on nothing else: two inputs give the same output exactly
    when they have the same set of values. *)
Theorem processData_eq_iff_same_values (data data' : list Z) :
  processData data = processData data' ↔
  list_to_set data =@{gset Z} list_to_set data'.
Proof.
  split.
  - intros Heq. by rewrite <- (list_to_set_processData data), Heq, list_to_set_processData.
  - intros Hs. apply processData_ext. intros x.
    by rewrite <- !(elem_of_list_to_set (C := gset Z)), Hs.
Qed.

(** X2: the order of the input is irrelevant: rearranging the input
    does not change the output of [processData]. *)
Theorem processData_Permutation (data data' : list Z) :
  data ≡ₚ data' → processData data = processData data'.
Proof. intros Hp. apply processData_ext. intros x. by rewrite Hp. Qed.

Lemma processData_Permutation_witness :
  [3; 1; 2; 3; 1] ≡ₚ [1; 1; 2; 3; 3] ∧
  processData [3; 1; 2; 3; 1] = processData [1; 1; 2; 3; 3].
Proof.
  assert ([3; 1; 2; 3; 1] ≡ₚ [1; 1; 2; 3; 3]) as Hp
    by (apply (bool_decide_unpack _ (dec := Permutation_dec _ _)); vm_compute; exact I).
  split; [exact Hp|]. apply (processData_Permutation _ _ Hp).
Defined.

(** X3: the sequences [processData] returns unchanged are exactly the
    strictly ascending ones. *)
Theorem processData_fixed_point_iff (data : list Z) :
  processData data = data ↔ StronglySorted Z.lt data.
Proof.
  split; [|apply processData_strictly_ascending_id].
  intros <-. apply processData_StronglySorted.
Qed.

(** X4: the length of the output of [processData] is the number of
    distinct values of the input. *)
Theorem processData_length_distinct (data : list Z) :
  length (processData data) = size (list_to_set data : gset Z).
Proof.
  rewrite <- list_to_set_processData. symmetry. apply size_list_to_set.
  apply strictly_ascending_NoDup, processData_StronglySorted.
Qed.

(** X5: one more element in the input, in front or at the back, is one
    ordered insertion into the output: the value goes to its rank, and a
    value already present leaves the output as it is. *)
Theorem processData_insert (x : Z) (data : list Z) :
  processData (x :: data) = IntSet.insert x (processData data) ∧
  processData (data ++ [x]) = IntSet.insert x (processData data).
Proof.
  assert (IntSet.wf (IntSet.insert x (processData data))) as Hwf
    by apply IntSet_insert_wf, processData_StronglySorted.
  split; (apply strictly_ascending_unique;
    [apply processData_StronglySorted|exact Hwf|]); intros z;
    rewrite IntSet_elem_of_insert, !elem_of_processData.
  - apply elem_of_cons.
  - rewrite elem_of_app, list_elem_of_singleton. tauto.
Qed.

(** X6: processing two batches separately and then processing the two
    outputs put end to end gives what processing the two batches put end
    to end gives. *)
Theorem processData_app (data1 data2 : list Z) :
  processData (data1 ++ data2) = processData (processData data1 ++ processData data2).
Proof.
  apply processData_ext. intros x. by rewrite !elem_of_app, !elem_of_processData.
Qed.

(** X7: the first element of the output of [processData] is the least
    value of the input: it occurs in the input and no input value is
    below it. *)
Theorem processData_head_least (data : list Z) (m : Z) :
  head (processData data) = Some m →
  m ∈ data ∧ ∀ x, x ∈ data → m <= x.
Proof.
  intros [rest Hout]%head_Some.
  pose proof (processData_StronglySorted data) as Hs. rewrite Hout in Hs.
  apply StronglySorted_cons in Hs as [Hm _].
  split.
  - apply elem_of_processData. rewrite Hout. apply elem_of_cons. by left.
  - intros x Hx%elem_of_processData. rewrite Hout in Hx.
    apply elem_of_cons in Hx as [->|Hx]; [lia|].
    eapply Forall_forall in Hm; [|exact Hx]. lia.
Qed.

Lemma processData_head_least_witness :
  head (processData [3; 1; 2; 3; 1]) = Some 1 ∧
  (1 ∈ [3; 1; 2; 3; 1] ∧ ∀ x, x ∈ [3; 1; 2; 3; 1] → 1 <= x).
Proof.
  split; [reflexivity|].
  apply (processData_head_least [3; 1; 2; 3; 1] 1). reflexivity.
Defined.

(** X8: the last element of the output of [processData] is the greatest
    value of the input: it occurs in the input and no input value is
    above it. *)
Theorem processData_last_greatest (data : list Z) (m : Z) :
  last (processData data) = Some m →
  m ∈ data ∧ ∀ x, x ∈ data → x <= m.
Proof.
  intros [front Hout]%last_Some.
  pose proof (processData_StronglySorted data) as Hs. rewrite Hout in Hs.
  apply StronglySorted_app in Hs as [Hm _].
  split.
  - apply elem_of_processData. rewrite Hout, elem_of_app, list_elem_of_singleton. by right.
  - intros x Hx%elem_of_processData. rewrite Hout in Hx.
    apply elem_of_app in Hx as [Hx| ->%list_elem_of_singleton]; [|lia].
    specialize (Hm x m Hx). rewrite list_elem_of_singleton in Hm. specialize (Hm eq_refl). lia.
Qed.

Lemma processData_last_greatest_witness :
  last (processData [3; 1; 2; 3; 1]) = Some 3 ∧
  (3 ∈ [3; 1; 2; 3; 1] ∧ ∀ x, x ∈ [3; 1; 2; 3; 1] → x <= 3).
Proof.
  split; [reflexivity|].
  apply (processData_last_greatest [3; 1; 2; 3; 1] 3). reflexivity.
Defined.

(** X9: [validateInput] gives the same answer on the output of
    [processData] as on its input, so the check may be made before or
    after the processing. *)
Theorem validateInput_processData (data : list Z) :
  validateInput (processData data) = validateInput data.
Proof.
  destruct data as [|x data]; [done|].
  destruct (processData (x :: data)) eqn:Hout; [|done].
  by apply processData_nil_inv in Hout.
Qed.

(** X10: when the loop ends, and before [std::sort] runs, [result] holds
    the first occurrence of every value of the input, in the order of
    the input. *)
Theorem loop_result_first_occurrences (data : list Z) :
  result (loop data locals_init) = reverse (remove_dups (reverse data)).
Proof.
  induction data as [|x data IH] using rev_ind; [done|].
  unfold loop. rewrite foldl_snoc. fold (loop data locals_init).
  rewrite reverse_snoc. simpl.
  pose proof (loop_inv_processData data) as [_ Hsr Hrd _ _ _].
  unfold visit. destruct (IntSet.contains x _) eqn:Hc; simpl.
  - apply IntSet_contains_elem_of, Hsr, Hrd in Hc.
    destruct (decide_rel _ x (reverse data)) as [_|Hn]; [done|].
    by destruct Hn; apply elem_of_reverse.
  - apply IntSet_contains_false in Hc.
    destruct (decide_rel _ x (reverse data)) as [Hx|_].
    + rewrite elem_of_reverse in Hx. destruct Hc. by apply Hsr, Hrd.
    + by rewrite reverse_cons, IH.
Qed.

(** X11: when the loop ends, the walk of the set [seen] in ascending
    order is already the sequence [processData] returns; sorting
    [result] recomputes it. *)
Theorem loop_seen_is_output (data : list Z) :
  IntSet.elements (seen (loop data locals_init)) = processData data.
Proof.
  pose proof (loop_inv_processData data) as [Hwf Hsr Hrd _ _ _].
  apply strictly_ascending_unique; [exact Hwf|apply processData_StronglySorted|].
  intros x. unfold IntSet.elements. by rewrite Hsr, Hrd, elem_of_processData.
Qed.

(** X12: [processData] neither invents nor loses a value: a property
    holds of every element of the output exactly when it holds of every
    element of the input.  In particular the output of a sequence of
    32-bit values is a sequence of 32-bit values. *)
Theorem processData_Forall (P : Z → Prop) (data : list Z) :
  Forall P (processData data) ↔ Forall P data.
Proof.
  rewrite !Forall_forall. split; intros H x Hx; by apply H, elem_of_processData.
Qed.

Lemma strictly_ascending_sublist (v w : list Z) :
  StronglySorted Z.lt v → StronglySorted Z.lt w → v ⊆ w → v `sublist_of` w.
Proof.
  intros Hv Hw. revert v Hv. induction Hw as [|y w Hw IH Hy]; intros v Hv Hsub.
  - destruct v as [|x v]; [done|].
    specialize (Hsub x). rewrite elem_of_cons, elem_of_nil in Hsub. naive_solver.
  - destruct v as [|x v]; [apply sublist_nil_l|].
    apply StronglySorted_cons in Hv as [Hx Hv].
    rewrite Forall_forall in Hx, Hy.
    destruct (decide (x = y)) as [->|Hne].
    + apply sublist_skip, IH; [done|]. intros z Hz.
      pose proof (Hx z Hz).
      assert (z ∈ y :: w) as [->|?]%elem_of_cons by (apply Hsub; by right); [lia|done].
    + apply sublist_cons, IH; [by apply StronglySorted_cons; rewrite Forall_forall|].
      assert (x ∈ w) as Hxw.
      { assert (x ∈ y :: w) as [->|?]%elem_of_cons by (apply Hsub; by left); done. }
      intros z [->|Hz]%elem_of_cons; [done|].
      pose proof (Hx z Hz). pose proof (Hy x Hxw).
      assert (z ∈ y :: w) as [->|?]%elem_of_cons by (apply Hsub; by right); [lia|done].
Qed.

(** X13: [processData] is monotone: when every value of one input
    occurs in another, the output for the first is a subsequence of the
    output for the second. *)
Theorem processData_monotone (data data' : list Z) :
  data ⊆ data' → processData data `sublist_of` processData data'.
Proof.
  intros Hsub. apply strictly_ascending_sublist; try apply processData_StronglySorted.
  intros x. rewrite !elem_of_processData. apply Hsub.
Qed.

Lemma processData_monotone_witness :
  [3; 1; 3] ⊆ [1; 2; 3; 1] ∧
  processData [3; 1; 3] `sublist_of` processData [1; 2; 3; 1].
Proof.
  assert ([3; 1; 3] ⊆ [1; 2; 3; 1]) as Hsub
    by (apply (bool_decide_unpack _); vm_compute; exact I).
  split; [exact Hsub|]. apply (processData_monotone _ _ Hsub).
Defined.

Lemma strictly_ascending_filter (P : Z → Prop) `{!∀ x, Decision (P x)} (v : list Z) :
  StronglySorted Z.lt v → StronglySorted Z.lt (filter P v).
Proof.
  induction 1 as [|x v Hv IH Hx]; [constructor|].
  rewrite filter_cons. destruct (decide (P x)); [|done].
  constructor; [done|]. rewrite Forall_forall in *.
  intros y [_ Hy]%list_elem_of_filter. auto.
Qed.

(** X15: a sequence that repeats one value, however often, gives the
    one-element sequence of that value. *)
Theorem processData_replicate (n : nat) (x : Z) :
  processData (replicate (S n) x) = [x].
Proof.
  apply strictly_ascending_unique; [apply processData_StronglySorted|repeat constructor|].
  intros y. rewrite elem_of_processData, elem_of_replicate, list_elem_of_singleton.
  split; [by intros [-> _]|by intros ->].
Qed.

(** X16: the contract fixes the output: a sequence is the output of
    [processData] for an input exactly when it is strictly ascending
    and has the values of that input. *)
Theorem processData_unique (data out : list Z) :
  out = processData data ↔
  StronglySorted Z.lt out ∧ ∀ x, x ∈ out ↔ x ∈ data.
Proof.
  split.
  - intros ->. split; [apply processData_StronglySorted|].
    intros x. apply elem_of_processData.
  - intros [Hs Hv]. apply strictly_ascending_unique;
      [done|apply processData_StronglySorted|].
    intros x. by rewrite Hv, elem_of_processData.
Qed.

(** X17: selecting elements commutes with [processData]: keeping the
    input elements that pass a test and then processing gives what
    processing and then keeping the output elements that pass the test
    gives. *)
Theorem processData_filter (p : Z → bool) (data : list Z) :
  processData (filter (λ x, p x = true) data) =
  filter (λ x, p x = true) (processData data).
Proof.
  apply strictly_ascending_unique; [apply processData_StronglySorted| |].
  - apply (strictly_ascending_filter _), processData_StronglySorted.
  - intros x. by rewrite elem_of_processData, !list_elem_of_filter, elem_of_processData.
Qed.

(** X18: a strictly increasing change of the values commutes with
    [processData]: applying it to every input element and then
    processing gives what processing and then applying it to every
    output element gives. *)
Theorem processData_fmap_increasing (f : Z → Z) (data : list Z) :
  (∀ x y, x < y → f x < f y) →
  processData (f <$> data) = f <$> processData data.
Proof.
  intros Hf. apply strictly_ascending_unique; [apply processData_StronglySorted| |].
  - apply (StronglySorted_fmap _ Z.lt Z.lt); [exact Hf|apply processData_StronglySorted].
  - intros y. rewrite elem_of_processData, !list_elem_of_fmap.
    split; intros (x & -> & Hx); exists x; split; try done;
      by apply elem_of_processData.
Qed.

Lemma processData_fmap_increasing_witness :
  (∀ x y, x < y → Z.succ x < Z.succ y) ∧
  processData (Z.succ <$> [3; 1; 2; 3; 1]) = Z.succ <$> processData [3; 1; 2; 3; 1].
Proof.
  assert (∀ x y, x < y → Z.succ x < Z.succ y) as Hf by (intros x y Hxy; lia).
  split; [exact Hf|]. apply (processData_fmap_increasing Z.succ [3; 1; 2; 3; 1] Hf).
Defined.

(** ** Further properties of the calls *)



(** The loop on the first example of the specification: [result] before
    the sort, and the set [seen]. *)
Example loop_example :
  result (loop [3; 1; 2; 3; 1] locals_init) = [3; 1; 2] ∧
  seen (loop [3; 1; 2; 3; 1] locals_init) = [1; 2; 3].
Proof. split; reflexivity. Qed.
